(** * The wasm counter module: [simple-wasmer/counter.c]

  The module owns one global, [int counter = 0], and exports two
  functions to the host: [increment], which runs [counter++], and
  [get_counter], which returns the global.

  The module is built with emscripten for wasm32, where [int] is the
  32-bit value type i32 and [+] on [int] is [i32.add]: two's complement
  addition modulo 2^32.  That is the arithmetic modelled here, with
  coqutil's 32-bit words.  (ISO C leaves the overflowing [counter++]
  undefined; [increment_defined] below marks the states where the C
  standard itself fixes the result, and the results about at most
  2^31 - 1 increments stay inside them.) *)

From Stdlib Require Import ZArith Lia List.
From coqutil Require Import Word.Interface Word.Properties Word.Naive.
Import ListNotations.
Local Open Scope Z_scope.

(** ** The C type [int] on wasm32 *)

Module Int32.

Definition int : Type := @word.rep 32 Naive.word32.

Definition INT_MAX : Z := 2 ^ 31 - 1.
Definition INT_MIN : Z := - 2 ^ 31.

(** The integer a C expression of type [int] denotes. *)
Definition value (x : int) : Z := word.signed x.

(** The 32 bits that hold it, read as a natural number. *)
Definition bits (x : int) : Z := word.unsigned x.

(** An integer constant of type [int]. *)
Definition const (z : Z) : int := word.of_Z z.

(** [x + y] on [int]: [i32.add]. *)
Definition add (x y : int) : int := word.add x y.

(** The signed reading of a 32-bit pattern [u] with [0 <= u < 2^32]:
    patterns below 2^31 stand for themselves, the others for
    [u - 2^32]. *)
Definition signed32 (u : Z) : Z := if u <? 2 ^ 31 then u else u - 2 ^ 32.

Arguments value : simpl never.
Arguments bits : simpl never.
Arguments const : simpl never.
Arguments add : simpl never.

End Int32.

(** ** The module's memory and the monad its functions run in *)

Module Counter.
Import Int32.

(** The module's globals: [int counter]. *)
Record globals : Type := { counter : int }.

(** What the host gets back from a call: the function returns, with a
    value and the memory it leaves, or the instance traps. *)
Inductive outcome (A : Type) : Type :=
| Returned (a : A) (g : globals)
| Trapped.
Arguments Returned {A} a g.
Arguments Trapped {A}.

Definition M (A : Type) : Type := globals -> outcome A.

Definition ret {A} (a : A) : M A := fun g => Returned a g.

Definition bind {A B} (m : M A) (k : A -> M B) : M B :=
  fun g => match m g with
           | Returned a g' => k a g'
           | Trapped => Trapped
           end.

Notation "x <- m ;; k" := (bind m (fun x => k))
  (at level 61, m at next level, right associativity).
Notation "m ;; k" := (bind m (fun _ => k))
  (at level 61, right associativity).

(** Reading and writing the global. *)
Definition load_counter : M int := fun g => Returned (counter g) g.
Definition store_counter (v : int) : M unit :=
  fun _ => Returned tt {| counter := v |}.

(** [int counter = 0;] *)
Definition initial : globals := {| counter := const 0 |}.

(** The expression [counter++]: its value is the old content of
    [counter], its effect stores the old content plus one. *)
Definition counter_postincr : M int :=
  old <- load_counter ;;
  store_counter (add old (const 1)) ;;
  ret old.

(** [void increment() { counter++; }] *)
Definition increment : M unit :=
  counter_postincr ;;
  ret tt.

(** [int get_counter() { return counter; }] *)
Definition get_counter : M int :=
  load_counter.

(** *** The host: calls to the exports, one after the other *)

Inductive export : Type := Increment | Get_counter.

(** One call; a [void] function hands back no value. *)
Definition invoke (e : export) : M (option int) :=
  match e with
  | Increment => increment ;; ret None
  | Get_counter => v <- get_counter ;; ret (Some v)
  end.

(** A sequence of calls, with what each handed back. *)
Fixpoint invoke_all (es : list export) : M (list (option int)) :=
  match es with
  | [] => ret []
  | e :: es' =>
      r <- invoke e ;;
      rs <- invoke_all es' ;;
      ret (r :: rs)
  end.

(** [n] calls of [increment]. *)
Definition increments (n : nat) : M (list (option int)) :=
  invoke_all (repeat Increment n).

(** The value a computation returns and the memory it leaves. *)
Definition result {A} (o : outcome A) : option A :=
  match o with Returned a _ => Some a | Trapped => None end.

Definition memory {A} (o : outcome A) : option globals :=
  match o with Returned _ g => Some g | Trapped => None end.

(** The states the module can be in: those some sequence of calls
    leads to from the initial memory. *)
Inductive reachable : globals -> Prop :=
| reachable_initial : reachable initial
| reachable_invoke g e r g' :
    reachable g -> invoke e g = Returned r g' -> reachable g'.

(** Where ISO C defines [counter++]: no signed overflow. *)
Definition increment_defined (g : globals) : bool :=
  value (counter g) <? INT_MAX.

(** What the host reads with [get_counter] after the calls [es], as an
    integer. *)
Definition reading_after (es : list export) (g : globals) : option Z :=
  option_map value (result ((invoke_all es ;; get_counter) g)).

(** The same after [n] calls of [increment] and nothing else. *)
Definition count_after (n : nat) (g : globals) : option Z :=
  option_map value (result ((increments n ;; get_counter) g)).

(** How many of the calls [es] are calls of [increment]. *)
Fixpoint count_increments (es : list export) : nat :=
  match es with
  | [] => O
  | Increment :: es' => S (count_increments es')
  | Get_counter :: es' => count_increments es'
  end.

(** The memories with the largest and the smallest [int] in [counter]. *)
Definition at_INT_MAX : globals := {| counter := const INT_MAX |}.
Definition at_INT_MIN : globals := {| counter := const INT_MIN |}.

End Counter.

(** * Facts about [int] *)

Module Int32_facts.
Import Int32.

Lemma bits_range (x : int) : 0 <= bits x < 2 ^ 32.
Proof. exact (word.unsigned_range x). Qed.

Lemma value_range (x : int) : INT_MIN <= value x <= INT_MAX.
Proof.
  pose proof (word.signed_range x) as H. unfold value, INT_MIN, INT_MAX.
  change (32 - 1) with 31 in H. lia.
Qed.

Lemma bits_const (z : Z) : bits (const z) = z mod 2 ^ 32.
Proof. exact (word.unsigned_of_Z z). Qed.

Lemma bits_add (x y : int) : bits (add x y) = (bits x + bits y) mod 2 ^ 32.
Proof. exact (word.unsigned_add x y). Qed.

Lemma bits_inj (x y : int) : bits x = bits y -> x = y.
Proof. exact (word.unsigned_inj x y). Qed.

(** The value of an [int] is the signed reading of its bits. *)
Lemma value_bits (x : int) : value x = signed32 (bits x).
Proof.
  unfold value. rewrite word.signed_eq_swrap_unsigned.
  fold (bits x). pose proof (bits_range x) as R.
  unfold word.swrap, signed32. change (32 - 1) with 31.
  destruct (Z.ltb_spec (bits x) (2 ^ 31)) as [L | L].
  - rewrite Z.mod_small by lia. lia.
  - replace (bits x + 2 ^ 31) with (bits x - 2 ^ 31 + 1 * 2 ^ 32) by lia.
    rewrite Z.mod_add by lia. rewrite Z.mod_small by lia. lia.
Qed.

(** Bits and value are the same number modulo 2^32. *)
Lemma value_mod (x : int) (k : Z) :
  (value x + k) mod 2 ^ 32 = (bits x + k) mod 2 ^ 32.
Proof.
  rewrite value_bits. pose proof (bits_range x) as R. unfold signed32.
  destruct (Z.ltb_spec (bits x) (2 ^ 31)) as [L | L]; [reflexivity |].
  replace (bits x - 2 ^ 32 + k) with (bits x + k + (-1) * 2 ^ 32) by lia.
  apply Z.mod_add. lia.
Qed.

(** Adding a constant: the value is the signed reading of the sum
    modulo 2^32. *)
Lemma value_add_const (x : int) (k : Z) :
  value (add x (const k)) = signed32 ((value x + k) mod 2 ^ 32).
Proof.
  rewrite value_bits, bits_add, bits_const, value_mod.
  rewrite Z.add_mod_idemp_r by lia. reflexivity.
Qed.

(** Without overflow the signed reading undoes the reduction. *)
Lemma signed32_mod_small (z : Z) :
  INT_MIN <= z <= INT_MAX -> signed32 (z mod 2 ^ 32) = z.
Proof.
  unfold INT_MIN, INT_MAX, signed32. intros R.
  destruct (Z.le_gt_cases 0 z) as [P | P].
  - rewrite Z.mod_small by lia.
    destruct (Z.ltb_spec z (2 ^ 31)); lia.
  - replace z with (z + 2 ^ 32 + (-1) * 2 ^ 32) by lia.
    rewrite Z.mod_add by lia. rewrite Z.mod_small by lia.
    destruct (Z.ltb_spec (z + 2 ^ 32) (2 ^ 31)); lia.
Qed.

(** Adding one after the other is adding the sum. *)
Lemma add_const_const (x : int) (j k : Z) :
  add (add x (const j)) (const k) = add x (const (j + k)).
Proof.
  apply bits_inj. rewrite !bits_add, !bits_const.
  rewrite Z.add_mod_idemp_l, !Z.add_mod_idemp_r by lia.
  replace (bits x + j mod 2 ^ 32 + k) with (bits x + k + j mod 2 ^ 32) by lia.
  rewrite Z.add_mod_idemp_r by lia. f_equal. lia.
Qed.

Lemma add_const_0 (x : int) : add x (const 0) = x.
Proof.
  apply bits_inj. rewrite bits_add, bits_const.
  rewrite Z.mod_0_l, Z.add_0_r by lia. apply Z.mod_small, bits_range.
Qed.

End Int32_facts.

(** * Running the exports *)

Module Counter_run.
Import Int32 Int32_facts Counter.

Lemma increment_run (g : globals) :
  increment g = Returned tt {| counter := add (counter g) (const 1) |}.
Proof. reflexivity. Qed.

Lemma get_counter_run (g : globals) :
  get_counter g = Returned (counter g) g.
Proof. reflexivity. Qed.

Lemma invoke_increment (g : globals) :
  invoke Increment g =
  Returned None {| counter := add (counter g) (const 1) |}.
Proof. reflexivity. Qed.

Lemma invoke_get_counter (g : globals) :
  invoke Get_counter g = Returned (Some (counter g)) g.
Proof. reflexivity. Qed.

Lemma invoke_all_cons (e : export) (es : list export) (g : globals) :
  invoke_all (e :: es) g =
  match invoke e g with
  | Returned r g1 =>
      match invoke_all es g1 with
      | Returned rs g2 => Returned (r :: rs) g2
      | Trapped => Trapped
      end
  | Trapped => Trapped
  end.
Proof. reflexivity. Qed.

Lemma globals_eta (g : globals) : {| counter := counter g |} = g.
Proof. destruct g. reflexivity. Qed.

(** Any sequence of calls returns, and leaves the counter advanced by
    the number of [increment] calls in it. *)
Lemma invoke_all_run (es : list export) :
  forall g, exists rs,
    invoke_all es g =
    Returned rs
      {| counter := add (counter g) (const (Z.of_nat (count_increments es))) |}.
Proof.
  induction es as [| e es IH]; intros g.
  - exists []. cbn [invoke_all count_increments]. unfold ret.
    change (Z.of_nat 0) with 0. rewrite add_const_0, globals_eta. reflexivity.
  - rewrite invoke_all_cons. destruct e.
    + rewrite invoke_increment.
      destruct (IH {| counter := add (counter g) (const 1) |}) as [rs ->].
      exists (None :: rs). cbn [counter count_increments].
      rewrite add_const_const. do 4 f_equal. lia.
    + rewrite invoke_get_counter. destruct (IH g) as [rs ->].
      exists (Some (counter g) :: rs). reflexivity.
Qed.

(** [n] calls of [increment] hand back nothing and add [n]. *)
Lemma increments_run (n : nat) :
  forall g,
    increments n g =
    Returned (repeat None n)
      {| counter := add (counter g) (const (Z.of_nat n)) |}.
Proof.
  unfold increments.
  induction n as [| n IH]; intros g.
  - cbn [repeat invoke_all]. unfold ret.
    change (Z.of_nat 0) with 0. rewrite add_const_0, globals_eta. reflexivity.
  - cbn [repeat]. rewrite invoke_all_cons, invoke_increment, IH.
    cbn [counter]. rewrite add_const_const. do 4 f_equal. lia.
Qed.

(** Calls of [get_counter] alone all hand back the counter and leave the
    memory as it was. *)
Lemma get_counters_run (n : nat) (g : globals) :
  invoke_all (repeat Get_counter n) g =
  Returned (repeat (Some (counter g)) n) g.
Proof.
  induction n as [| n IH]; [reflexivity |].
  cbn [repeat]. rewrite invoke_all_cons, invoke_get_counter, IH. reflexivity.
Qed.

Lemma reading_after_run (es : list export) (g : globals) :
  reading_after es g =
  Some (signed32 ((value (counter g) + Z.of_nat (count_increments es))
                  mod 2 ^ 32)).
Proof.
  unfold reading_after, bind. destruct (invoke_all_run es g) as [rs ->].
  rewrite get_counter_run. cbn [result option_map counter].
  rewrite value_add_const. reflexivity.
Qed.

Lemma count_after_run (n : nat) (g : globals) :
  count_after n g =
  Some (signed32 ((value (counter g) + Z.of_nat n) mod 2 ^ 32)).
Proof.
  unfold count_after, bind. rewrite increments_run, get_counter_run.
  cbn [result option_map counter]. rewrite value_add_const. reflexivity.
Qed.

Lemma value_initial : value (counter initial) = 0.
Proof. reflexivity. Qed.

Lemma reachable_invoke_all (es : list export) :
  forall g rs g',
    reachable g -> invoke_all es g = Returned rs g' -> reachable g'.
Proof.
  induction es as [| e es IH]; intros g rs g' R H.
  - cbn [invoke_all] in H. unfold ret in H. injection H as _ <-. exact R.
  - rewrite invoke_all_cons in H.
    destruct (invoke e g) as [r g1 |] eqn:E; [| discriminate].
    destruct (invoke_all es g1) as [rs1 g2 |] eqn:E1; [| discriminate].
    injection H as _ <-.
    apply (IH g1 rs1 g2); [| exact E1].
    exact (reachable_invoke g e r g1 R E).
Qed.

(** Every memory is reachable: [bits c] increments lead to [c]. *)
Lemma reachable_all (g : globals) : reachable g.
Proof.
  destruct g as [c].
  apply (reachable_invoke_all (repeat Increment (Z.to_nat (bits c)))
           initial (repeat None (Z.to_nat (bits c)))).
  - exact reachable_initial.
  - fold (increments (Z.to_nat (bits c))). rewrite increments_run.
    do 2 f_equal. pose proof (bits_range c) as R.
    rewrite Z2Nat.id by lia. apply bits_inj.
    unfold initial. cbn [counter]. rewrite bits_add, !bits_const.
    rewrite Z.mod_0_l, Z.add_0_l, Z.mod_mod by lia.
    apply Z.mod_small. exact R.
Qed.

End Counter_run.

(** * The properties of the module *)

Module Counter_spec.
Import Int32 Int32_facts Counter Counter_run.

(** While fewer than [INT_MAX] increments have been made, the next
    [counter++] does not overflow: ISO C defines it too. *)
Lemma increments_defined (n : nat) :
  Z.of_nat n < INT_MAX ->
  exists rs g',
    increments n initial = Returned rs g' /\ increment_defined g' = true.
Proof.
  intros L. rewrite increments_run. eexists _, _. split; [reflexivity |].
  unfold increment_defined. cbn [counter]. apply Z.ltb_lt.
  rewrite value_add_const, value_initial, Z.add_0_l, signed32_mod_small.
  - exact L.
  - unfold INT_MIN, INT_MAX in *. lia.
Qed.

(** C1, as amended: for every natural number N up to 2^31 - 1, after
    exactly N calls to [increment] from the initial state and no other
    operation, [get_counter] returns N. *)
Theorem count_after_initial (N : nat) :
  Z.of_nat N <= INT_MAX ->
  count_after N initial = Some (Z.of_nat N).
Proof.
  intros L.
  rewrite count_after_run, value_initial, Z.add_0_l, signed32_mod_small.
  - reflexivity.
  - unfold INT_MIN. lia.
Qed.

Lemma count_after_initial_witness :
  Z.of_nat 3 <= INT_MAX /\ count_after 3 initial = Some (Z.of_nat 3).
Proof.
  split; [unfold INT_MAX; lia | apply (count_after_initial 3)].
  unfold INT_MAX. lia.
Defined.

(** C1, as stated, fails at N = 2^31: [get_counter] then returns -2^31,
    which is not N. *)
Lemma count_after_initial_overflow :
  count_after (Z.to_nat (2 ^ 31)) initial = Some (- 2 ^ 31) /\
  Some (- 2 ^ 31) <> Some (Z.of_nat (Z.to_nat (2 ^ 31))).
Proof.
  split.
  - rewrite count_after_run, value_initial, Z2Nat.id by lia. reflexivity.
  - rewrite Z2Nat.id by lia. intros H. discriminate H.
Qed.

(** C2: in the initial state, before any call to [increment],
    [get_counter] returns 0. *)
Theorem get_counter_initial :
  option_map value (result (get_counter initial)) = Some 0 /\
  count_after 0 initial = Some 0.
Proof. split; reflexivity. Qed.

(** C3: every call to [increment] returns no value and changes the
    counter by +1 with 32-bit wrap-around: the new value is the signed
    reading of (old value + 1) mod 2^32. *)
Theorem increment_adds_one (g : globals) :
  exists g',
    increment g = Returned tt g' /\
    value (counter g') = signed32 ((value (counter g) + 1) mod 2 ^ 32).
Proof.
  rewrite increment_run. eexists. split; [reflexivity |].
  cbn [counter]. apply value_add_const.
Qed.

(** C4: a call to [get_counter] leaves the memory as it found it, in
    every state. *)
Theorem get_counter_frame (g : globals) :
  memory (get_counter g) = Some g /\
  memory (invoke Get_counter g) = Some g.
Proof. split; reflexivity. Qed.

(** C5: consecutive calls to [get_counter] with no [increment] between
    them return the same value: two calls do, and so do [n] calls. *)
Theorem get_counter_idempotent (g : globals) :
  result ((a <- get_counter ;; b <- get_counter ;; ret (a, b)) g) =
  Some (counter g, counter g) /\
  forall n : nat,
    result (invoke_all (repeat Get_counter n) g) =
    Some (repeat (Some (counter g)) n).
Proof.
  split; [reflexivity |].
  intros n. rewrite get_counters_run. reflexivity.
Qed.

(** C6: neither export can fail: in every state [increment] and
    [get_counter] return, and no sequence of calls traps. *)
Theorem exports_never_trap (g : globals) :
  (exists g', increment g = Returned tt g') /\
  (exists v g', get_counter g = Returned v g') /\
  (forall es : list export, invoke_all es g <> Trapped).
Proof.
  repeat split.
  - eexists. apply increment_run.
  - eexists _, _. apply get_counter_run.
  - intros es. destruct (invoke_all_run es g) as [rs ->]. discriminate.
Qed.

(** C7, as amended: in every reachable state, a step is either an
    [increment] step, after which the counter is greater by exactly 1
    unless it was 2^31 - 1, when it becomes -2^31; or a [get_counter]
    step, which leaves the memory unchanged. *)
Theorem step_cases (g : globals) (e : export) :
  reachable g ->
  exists r g',
    invoke e g = Returned r g' /\
    ((e = Increment /\ r = None /\
      value (counter g') =
      if increment_defined g then value (counter g) + 1 else INT_MIN)
     \/
     (e = Get_counter /\ r = Some (counter g) /\ g' = g)).
Proof.
  intros _. destruct e.
  - eexists _, _. split; [apply invoke_increment |].
    left. repeat split. cbn [counter]. rewrite value_add_const.
    pose proof (value_range (counter g)) as R. unfold increment_defined.
    destruct (Z.ltb_spec (value (counter g)) INT_MAX) as [L | L].
    + apply signed32_mod_small. unfold INT_MIN, INT_MAX in *. lia.
    + replace (value (counter g)) with INT_MAX by lia. reflexivity.
  - eexists _, _. split; [apply invoke_get_counter |].
    right. repeat split.
Qed.

Lemma step_cases_witness :
  reachable initial /\
  exists r g',
    invoke Increment initial = Returned r g' /\
    ((Increment = Increment /\ r = None /\
      value (counter g') =
      if increment_defined initial
      then value (counter initial) + 1 else INT_MIN)
     \/
     (Increment = Get_counter /\ r = Some (counter initial) /\ g' = initial)).
Proof.
  split; [exact reachable_initial |].
  apply (step_cases initial Increment). exact reachable_initial.
Defined.

(** C7, as stated, fails in the reachable state where the counter is
    2^31 - 1: the [increment] step takes it to -2^31, which is neither
    greater by 1 nor unchanged. *)
Lemma increment_at_INT_MAX :
  reachable at_INT_MAX /\
  invoke Increment at_INT_MAX = Returned None at_INT_MIN /\
  value (counter at_INT_MAX) = 2 ^ 31 - 1 /\
  value (counter at_INT_MIN) = - 2 ^ 31 /\
  value (counter at_INT_MIN) < value (counter at_INT_MAX) /\
  value (counter at_INT_MIN) <> value (counter at_INT_MAX) + 1.
Proof.
  split; [apply reachable_all |].
  split; [rewrite invoke_increment; do 2 f_equal; apply bits_inj;
          reflexivity |].
  repeat split. intros H. discriminate H.
Qed.

(** C8: from the initial state, after one call to [increment]
    [get_counter] returns 1, and after five calls it returns 5. *)
Theorem count_after_1_and_5 :
  count_after 1 initial = Some 1 /\ count_after 5 initial = Some 5.
Proof. split; reflexivity. Qed.

(** C9: the counter is a 32-bit signed integer that wraps: after exactly
    2^31 calls to [increment] from the initial state, [get_counter]
    returns -2^31, a negative value, and not 2^31. *)
Theorem count_after_two_pow_31 :
  count_after (Z.to_nat (2 ^ 31)) initial = Some (- 2 ^ 31) /\
  - 2 ^ 31 < 0 /\
  count_after (Z.to_nat (2 ^ 31)) initial <> Some (2 ^ 31).
Proof.
  assert (E : count_after (Z.to_nat (2 ^ 31)) initial = Some (- 2 ^ 31)).
  { rewrite count_after_run, value_initial, Z2Nat.id by lia. reflexivity. }
  split; [exact E |]. split; [lia |].
  rewrite E. intros H. discriminate H.
Qed.

(** C10: from every state [g] and for every [k], [k] calls to
    [increment] and then [get_counter] return the signed reading of
    (value of [g] + k) mod 2^32; only the number of [increment] calls in
    a sequence of calls matters to what is read next, and two runs of
    increments can be swapped. *)
Theorem count_after_any (g : globals) (k : nat) :
  count_after k g =
  Some (signed32 ((value (counter g) + Z.of_nat k) mod 2 ^ 32)) /\
  (forall es : list export,
     reading_after es g = count_after (count_increments es) g) /\
  (forall a b : nat,
     memory ((increments a ;; increments b) g) =
     memory ((increments b ;; increments a) g)).
Proof.
  split; [apply count_after_run |]. split.
  - intros es. rewrite reading_after_run, count_after_run. reflexivity.
  - intros a b. unfold bind. rewrite !increments_run. cbn [memory counter].
    rewrite !add_const_const. do 4 f_equal. lia.
Qed.

End Counter_spec.

(** * Further properties: call sequences, overflow and the cycle of
    the counter *)

Module Counter_cycle.
Import Int32 Int32_facts Counter Counter_run.

Lemma add_const_S (c : int) (k : nat) :
  add (add c (const 1)) (const (Z.of_nat k)) = add c (const (Z.of_nat (S k))).
Proof. rewrite add_const_const. do 2 f_equal. lia. Qed.

(** Before a call of [increment] at position [i], strictly fewer
    increments have been made than the whole sequence holds. *)
Lemma count_increments_firstn (es : list export) :
  forall i,
    nth_error es i = Some Increment ->
    (S (count_increments (firstn i es)) <= count_increments es)%nat.
Proof.
  induction es as [| e es IH]; intros [| i] H; cbn in H; try discriminate.
  - injection H as ->. cbn. lia.
  - specialize (IH i H). destruct e; cbn [firstn count_increments]; lia.
Qed.

(** X1: what a whole sequence of calls does.  It returns; the counter
    ends advanced by the number of [increment] calls; there is one
    result per call; a call of [increment] hands back nothing, and a
    call of [get_counter] hands back the counter advanced by the number
    of [increment] calls made before it. *)
Theorem invoke_all_trace (es : list export) (g : globals) :
  exists rs,
    invoke_all es g =
    Returned rs
      {| counter := add (counter g) (const (Z.of_nat (count_increments es))) |}
    /\ length rs = length es
    /\ forall i : nat,
         nth_error rs i =
         option_map
           (fun e =>
              match e with
              | Increment => None
              | Get_counter =>
                  Some (add (counter g)
                          (const (Z.of_nat (count_increments (firstn i es)))))
              end)
           (nth_error es i).
Proof.
  revert g. induction es as [| e es IH]; intros g.
  - exists []. split; [| split].
    + cbn [invoke_all count_increments]. unfold ret.
      change (Z.of_nat 0) with 0. rewrite add_const_0, globals_eta.
      reflexivity.
    + reflexivity.
    + intros [| i]; reflexivity.
  - rewrite invoke_all_cons. destruct e.
    + rewrite invoke_increment.
      destruct (IH {| counter := add (counter g) (const 1) |})
        as (rs & -> & Hlen & Hnth).
      exists (None :: rs). cbn [counter] in *. split; [| split].
      * cbn [count_increments]. rewrite add_const_S. reflexivity.
      * cbn [length]. rewrite Hlen. reflexivity.
      * intros [| i]; [reflexivity |].
        cbn [nth_error firstn count_increments]. rewrite Hnth.
        destruct (nth_error es i) as [[|] |]; cbn [option_map];
          try reflexivity.
        rewrite add_const_S. reflexivity.
    + rewrite invoke_get_counter.
      destruct (IH g) as (rs & -> & Hlen & Hnth).
      exists (Some (counter g) :: rs). split; [| split].
      * reflexivity.
      * cbn [length]. rewrite Hlen. reflexivity.
      * intros [| i].
        -- cbn [nth_error firstn count_increments option_map].
           change (Z.of_nat 0) with 0. rewrite add_const_0. reflexivity.
        -- cbn [nth_error firstn count_increments]. apply Hnth.
Qed.

(** X2: without overflow nothing wraps, from any state and through any
    sequence of calls: when the counter's value plus the number of
    [increment] calls stays within [INT_MAX], the next [get_counter]
    reads exactly that sum. *)
Theorem reading_after_no_overflow (es : list export) (g : globals) :
  value (counter g) + Z.of_nat (count_increments es) <= INT_MAX ->
  reading_after es g =
  Some (value (counter g) + Z.of_nat (count_increments es)).
Proof.
  intros L. rewrite reading_after_run, signed32_mod_small; [reflexivity |].
  pose proof (value_range (counter g)). lia.
Qed.

Lemma reading_after_no_overflow_witness :
  value (counter initial)
  + Z.of_nat (count_increments [Increment; Get_counter; Increment])
  <= INT_MAX /\
  reading_after [Increment; Get_counter; Increment] initial =
  Some (value (counter initial)
        + Z.of_nat (count_increments [Increment; Get_counter; Increment])).
Proof.
  split.
  - vm_compute. intros H. discriminate H.
  - apply (reading_after_no_overflow [Increment; Get_counter; Increment]
             initial).
    vm_compute. intros H. discriminate H.
Defined.


(** X4: and no shorter run does: after [n] calls of [increment] with
    0 < n < 2^32 the state differs from the one they started in.  In
    particular one [increment] always changes the counter. *)
Theorem increments_change (g : globals) (n : nat) :
  0 < Z.of_nat n < 2 ^ 32 ->
  memory (increments n g) <> Some g.
Proof.
  intros R H. rewrite increments_run in H. cbn [memory] in H.
  injection H as H. apply (f_equal counter) in H. cbn [counter] in H.
  apply (f_equal bits) in H. rewrite bits_add, bits_const in H.
  rewrite (Z.mod_small (Z.of_nat n)) in H by lia.
  pose proof (bits_range (counter g)) as B.
  destruct (Z.lt_ge_cases (bits (counter g) + Z.of_nat n) (2 ^ 32)) as [S | S].
  - rewrite Z.mod_small in H by lia. lia.
  - replace (bits (counter g) + Z.of_nat n)
      with (bits (counter g) + Z.of_nat n - 2 ^ 32 + 1 * 2 ^ 32) in H by lia.
    rewrite Z.mod_add, Z.mod_small in H by lia. lia.
Qed.

Lemma increments_change_witness :
  0 < Z.of_nat 1 < 2 ^ 32 /\ memory (increments 1 initial) <> Some initial.
Proof.
  split; [lia | apply (increments_change initial 1); lia].
Defined.

(** X5: [increment] loses nothing: every state has exactly one state
    that [increment] takes to it. *)
Theorem increment_predecessor (g : globals) :
  exists g0,
    memory (increment g0) = Some g /\
    forall g1, memory (increment g1) = Some g -> g1 = g0.
Proof.
  exists {| counter := add (counter g) (const (-1)) |}. split.
  - rewrite increment_run. cbn [memory counter].
    rewrite add_const_const. change (-1 + 1) with 0.
    rewrite add_const_0, globals_eta. reflexivity.
  - intros g1 H. rewrite increment_run in H. cbn [memory] in H.
    injection H as <-. cbn [counter].
    rewrite add_const_const. change (1 + -1) with 0.
    rewrite add_const_0, globals_eta. reflexivity.
Qed.

(** X6: as long as the host makes at most 2^31 - 1 calls of [increment]
    after start-up, no [counter++] overflows: each call of [increment]
    in the sequence starts in a state where ISO C defines it. *)
Theorem increment_calls_defined (es : list export) (i : nat) :
  Z.of_nat (count_increments es) <= INT_MAX ->
  nth_error es i = Some Increment ->
  exists rs g',
    invoke_all (firstn i es) initial = Returned rs g' /\
    increment_defined g' = true.
Proof.
  intros L H. pose proof (count_increments_firstn es i H) as C.
  destruct (invoke_all_run (firstn i es) initial) as [rs E].
  eexists _, _. split; [exact E |].
  unfold increment_defined. cbn [counter]. apply Z.ltb_lt.
  rewrite value_add_const, value_initial, Z.add_0_l, signed32_mod_small.
  - lia.
  - unfold INT_MIN, INT_MAX in *. lia.
Qed.

Lemma increment_calls_defined_witness :
  Z.of_nat (count_increments [Increment; Get_counter; Increment]) <= INT_MAX /\
  nth_error [Increment; Get_counter; Increment] 2 = Some Increment /\
  exists rs g',
    invoke_all (firstn 2 [Increment; Get_counter; Increment]) initial =
    Returned rs g' /\
    increment_defined g' = true.
Proof.
  split; [vm_compute; intros H; discriminate H |].
  split; [reflexivity |].
  apply (increment_calls_defined [Increment; Get_counter; Increment] 2).
  - vm_compute. intros H. discriminate H.
  - reflexivity.
Defined.

End Counter_cycle.
